(** * The private-game service (src/services/privateService.js)

    A shallow embedding of the five service functions
    [createPrivateGame], [getPrivateGames], [joinPrivateGame],
    [deletePrivateGame] and [getPlayers], together with the part of the
    Sequelize models [Game] and [Priv] they call.

    - The database is a pair of tables, each a finite map from the primary
      key to the remaining columns of the row.
    - An [async function] is a state transformer over the database that
      either returns a value or throws an [Error]; [await] is the monadic
      bind and [try { .. } catch (error) { .. }] is [try_catch].  What a
      call wrote before it threw stays written: nothing is rolled back.
    - [console.log] and [console.error] write to the process output only
      and are left out. *)

From stdpp Require Import gmap strings list fin_maps.

Open Scope Z_scope.
Open Scope string_scope.

(** ** Values, errors and asynchronous computations *)

(** Scalar values held by a column or by a field of a returned object. *)
Inductive val :=
  | VNum (n : Z)
  | VStr (s : string).

#[global] Instance val_eq_dec : EqDecision val.
Proof. solve_decision. Defined.

(** A plain JavaScript object with scalar fields. *)
Abbreviation obj := (gmap string val).

(** [new Error(message)]. *)
Record Error := mkError { message : string }.

Inductive completion (A : Type) :=
  | Returned (a : A)
  | Thrown (e : Error).
Arguments Returned {A} a.
Arguments Thrown {A} e.

(** Modelled from the spec: models/Game.js is not part of the sources; the
    status of a game is "an enumerated value; only ACTIVE is exercised". *)
Inductive GAME_STATUS :=
  | ACTIVE
  | OTHER_STATUS (name : string).

(** A row of the Game table, without its primary key. *)
Record GameRow := { status : GAME_STATUS }.

(** A row of the PrivateGame table, without its primary key [id]. *)
Record PrivRow := {
  passwd : string;
  link : string;
  maxPlayers : Z;
  currentPlayers : Z
}.

Record Db := {
  Games : gmap Z GameRow;
  Privs : gmap Z PrivRow
}.

Definition Async (A : Type) : Type := Db → completion A * Db.

#[global] Instance Async_ret : MRet Async :=
  λ A a db, (Returned a, db).

#[global] Instance Async_bind : MBind Async :=
  λ A B k m db,
    match m db with
    | (Returned a, db') => k a db'
    | (Thrown e, db') => (Thrown e, db')
    end.

Definition throw {A : Type} (e : Error) : Async A :=
  λ db, (Thrown e, db).

Definition try_catch {A : Type} (body : Async A) (handler : Error → Async A)
  : Async A :=
  λ db,
    match body db with
    | (Returned a, db') => (Returned a, db')
    | (Thrown e, db') => handler e db'
    end.

(** ** Query options shared by the model methods *)

(** [where: { c1: v1, c2: v2 }]: every listed column equals its value. *)
Abbreviation where_clause := (list (string * val)).

(** ** The Game model *)

Module Game.

(** Modelled from the spec: models/Game.js is not part of the sources; the
    id of a game is a "generated unique identifier".  The generated key
    is one that no row of the table has. *)
Definition next_id (db : Db) : Z := fresh (dom (Games db)).

(** [Game.create({ status })] inserts a row under a generated id and
    resolves to the stored instance. *)
Definition create (st : GAME_STATUS) : Async (Z * GameRow) :=
  λ db,
    let id := next_id db in
    let row := {| status := st |} in
    (Returned (id, row),
     {| Games := <[id := row]> (Games db); Privs := Privs db |}).

End Game.

(** ** The Priv model *)

Module Priv.

(** The value of column [c] in the row [r] stored under the key [id]. *)
Definition column (c : string) (id : Z) (r : PrivRow) : option val :=
  if decide (c = "id") then Some (VNum id)
  else if decide (c = "passwd") then Some (VStr (passwd r))
  else if decide (c = "link") then Some (VStr (link r))
  else if decide (c = "maxPlayers") then Some (VNum (maxPlayers r))
  else if decide (c = "currentPlayers") then Some (VNum (currentPlayers r))
  else None.

Definition matches (w : where_clause) (id : Z) (r : PrivRow) : bool :=
  forallb (λ cv, bool_decide (column cv.1 id r = Some cv.2)) w.

(** The rows selected by a where clause. *)
Definition select (w : where_clause) (t : gmap Z PrivRow) : gmap Z PrivRow :=
  filter (λ kr, matches w kr.1 kr.2 = true) t.

(** An instance restricted to the listed attributes. *)
Definition project (attributes : list string) (id : Z) (r : PrivRow) : obj :=
  list_to_map (omap (λ c, (λ v, (c, v)) <$> column c id r) attributes).

(** Modelled from the spec: models/Private.js is not part of the sources;
    [id] is the primary key shared with the Game row.

    [Priv.create({ id, passwd, link, maxPlayers, currentPlayers })]
    inserts the row; a second row under the same primary key is refused,
    with the message Sequelize gives its unique-constraint error.  This
    is the one refusal modelled: what the column declarations of the
    model refuse besides (a length, a range, a type) is not known here,
    so the statements below that speak of a creation are about one that
    returned, and none says when it does. *)
Definition create (id : Z) (r : PrivRow) : Async (Z * PrivRow) :=
  λ db,
    match Privs db !! id with
    | Some _ => (Thrown (mkError "Validation error"), db)
    | None =>
        (Returned (id, r),
         {| Games := Games db; Privs := <[id := r]> (Privs db) |})
    end.

(** [Priv.findAll({ attributes })]. *)
Definition findAll (attributes : list string) : Async (list obj) :=
  λ db,
    (Returned ((λ kr, project attributes kr.1 kr.2) <$> map_to_list (Privs db)),
     db).

(** [Priv.findOne({ where })]: a selected row, or [null]. *)
Definition findOne (w : where_clause) : Async (option (Z * PrivRow)) :=
  λ db, (Returned (head (map_to_list (select w (Privs db)))), db).

(** [Priv.destroy({ where })] removes the selected rows and resolves to
    their number. *)
Definition destroy (w : where_clause) : Async Z :=
  λ db,
    let gone := select w (Privs db) in
    (Returned (Z.of_nat (size gone)),
     {| Games := Games db; Privs := Privs db ∖ gone |}).

End Priv.

(** ** The service *)

(** The endpoint bound to [link] at line 21 of the source. *)
Definition gameEndpoint : option string :=
  Some "http://localhost:3000/api/privateGames".

(** The body of [createPrivateGame], with the value bound to [link] taken
    as the parameter [endpoint]: [None] stands for [undefined].  [!link]
    holds of [undefined] and of the empty string; past the guard the
    string is [l]. *)
Definition createPrivateGame_from (endpoint : option string)
    (passwd : string) (maxPlayers : Z) : Async string :=
  try_catch
    (l ← match endpoint with
         | Some (String _ _ as l) => mret l
         | Some EmptyString | None =>
             throw (mkError "No se pudo obtener el endpoint de la partida privada")
         end;
     newGame ← Game.create ACTIVE;
     newPrivateGame ← Priv.create newGame.1
                        {| passwd := passwd;
                           link := l;
                           maxPlayers := maxPlayers;
                           currentPlayers := 0 |};
     mret (link newPrivateGame.2))
    (λ error,
       throw (mkError ("Error creando partida privada: " +:+ message error))).

Definition createPrivateGame : string → Z → Async string :=
  createPrivateGame_from gameEndpoint.

(** The object [{ "privateGames": privateGames }]. *)
Record PrivateGamesListing := { privateGames : list obj }.

Definition getPrivateGames : Async PrivateGamesListing :=
  try_catch
    (privateGames ← Priv.findAll ["id"; "maxPlayers"; "currentPlayers"];
     mret {| privateGames := privateGames |})
    (λ error,
       throw (mkError ("Error obteniendo partidas privadas: " +:+ message error))).

(** Resolves to [null] ([None]) or to the object [{ link }]. *)
Definition joinPrivateGame (gameId : Z) (passwd : string) : Async (option obj) :=
  try_catch
    (privateGame ← Priv.findOne [("id", VNum gameId); ("passwd", VStr passwd)];
     match privateGame with
     | None => mret None
     | Some pg => mret (Some ({[ "link" := VStr (link pg.2) ]} : obj))
     end)
    (λ error,
       throw (mkError ("Error uniendo a la partida privada: " +:+ message error))).

(** Resolves to [null] ([None]) or to the number of rows removed. *)
Definition deletePrivateGame (gameId : Z) : Async (option Z) :=
  try_catch
    (deletedGame ← Priv.destroy [("id", VNum gameId)];
     if decide (deletedGame = 0) then mret None
     else mret (Some deletedGame))
    (λ error,
       throw (mkError ("Error eliminando partida privada: " +:+ message error))).

(** Resolves to [null] ([None]) or to the stored [currentPlayers]. *)
Definition getPlayers (gameId : Z) : Async (option Z) :=
  try_catch
    (privateGame ← Priv.findOne [("id", VNum gameId)];
     match privateGame with
     | None => mret None
     | Some pg => mret (Some (currentPlayers pg.2))
     end)
    (λ error,
       throw (mkError ("Error obteniendo jugadores de la partida privada: "
                       +:+ message error))).

(** The fields a listing entry is meant to show. *)
Definition public_fields : gset string :=
  {[ "id"; "maxPlayers"; "currentPlayers" ]}.

(** ** Sequences of service calls *)

(** A call of one of the five exported functions, with its arguments. *)
Inductive request :=
  | CreatePrivateGame (passwd : string) (maxPlayers : Z)
  | GetPrivateGames
  | JoinPrivateGame (gameId : Z) (passwd : string)
  | DeletePrivateGame (gameId : Z)
  | GetPlayers (gameId : Z).

(** The database a call leaves behind, whether it returned or threw. *)
Definition serve (q : request) (db : Db) : Db :=
  match q with
  | CreatePrivateGame p mp => (createPrivateGame p mp db).2
  | GetPrivateGames => (getPrivateGames db).2
  | JoinPrivateGame gameId p => (joinPrivateGame gameId p db).2
  | DeletePrivateGame gameId => (deletePrivateGame gameId db).2
  | GetPlayers gameId => (getPlayers gameId db).2
  end.

Definition empty_db : Db := {| Games := ∅; Privs := ∅ |}.

(** The databases the service can produce from the empty one. *)
Inductive reachable : Db → Prop :=
  | reachable_empty : reachable empty_db
  | reachable_serve q db : reachable db → reachable (serve q db).

(** The row and the database of the scenario of the specification: one
    game created with passwd "abc123" for 4 players. *)
Definition scenario_row : PrivRow :=
  {| passwd := "abc123";
     link := "http://localhost:3000/api/privateGames";
     maxPlayers := 4;
     currentPlayers := 0 |}.

Definition scenario_db : Db :=
  {| Games := {[ 0 := {| status := ACTIVE |} ]};
     Privs := {[ 0 := scenario_row ]} |}.

(** Every private game has its Game row (the shared primary key). *)
Definition referential (db : Db) : Prop :=
  dom (Privs db) ⊆ dom (Games db).

(** The database left by a sequence of calls, first call first. *)
Definition serve_all (qs : list request) (db : Db) : Db :=
  foldl (λ d q, serve q d) db qs.

(** * The CSV import script (lines 139-404 of the same source file)

    The helpers [parseUUID], [parseString], [parseIntValue] and
    [parseDate], and the ['data'] handlers of the five importers.  A row
    is the object csv-parser hands to the handler: a cell that the line
    does not have is an absent key, read as [undefined].  Reading the
    file, the ['end'] handlers and [bulkCreate] are not modelled. *)

(** ** JavaScript strings and numbers *)

(** A string is the list of its UTF-16 code units; [length] counts them. *)
Abbreviation jsstring := (list N).

(** The code units of an ASCII literal. *)
Definition units (s : string) : jsstring :=
  Ascii.N_of_ascii <$> String.list_ascii_of_string s.

(** The code units [String.prototype.trim] and [parseInt] strip: the
    WhiteSpace and LineTerminator productions of ECMAScript. *)
Definition is_white_space (c : N) : bool :=
  bool_decide (c ∈ [9; 10; 11; 12; 13; 32; 160; 5760; 8232; 8233; 8239;
                    8287; 12288; 65279]%N)
  || ((8192 <=? c)%N && (c <=? 8202)%N).

Fixpoint trimStart (s : jsstring) : jsstring :=
  match s with
  | [] => []
  | c :: s' => if is_white_space c then trimStart s' else s
  end.

Fixpoint trimEnd (s : jsstring) : jsstring :=
  match s with
  | [] => []
  | c :: s' =>
      match trimEnd s' with
      | [] => if is_white_space c then [] else [c]
      | t => c :: t
      end
  end.

(** [s.trim()]. *)
Definition trim (s : jsstring) : jsstring := trimEnd (trimStart s).

(** Neither the first nor the last code unit is white space. *)
Definition trimmed (s : jsstring) : Prop :=
  (∀ c, head s = Some c → is_white_space c = false) ∧
  (∀ c, last s = Some c → is_white_space c = false).

(** A call that returns, or throws the TypeError of a method called on
    [undefined]. *)
Inductive outcome (A : Type) :=
  | Value (a : A)
  | TypeError.
Arguments Value {A} a.
Arguments TypeError {A}.

#[global] Instance outcome_ret : MRet outcome := λ A a, Value a.

#[global] Instance outcome_bind : MBind outcome :=
  λ A B k m, match m with Value a => k a | TypeError => TypeError end.

(** [value.trim()] on a cell that may be [undefined]. *)
Definition call_trim (value : option jsstring) : outcome jsstring :=
  match value with
  | Some v => Value (trim v)
  | None => TypeError
  end.

(** [String(value)] of a cell. *)
Definition ToString (value : option jsstring) : jsstring :=
  match value with
  | Some v => v
  | None => units "undefined"
  end.

(** A Number that is [NaN] or integral.  [Num z] is the Number value of
    the integer [z]: [z] itself up to 2^53 in magnitude, the nearest
    double beyond; [Num 0] also stands for [-0]. *)
Inductive number :=
  | NaN
  | Num (z : Z).

Definition is_digit (c : N) : bool := (48 <=? c)%N && (c <=? 57)%N.

Fixpoint digits_prefix (s : jsstring) : jsstring :=
  match s with
  | [] => []
  | c :: s' => if is_digit c then c :: digits_prefix s' else []
  end.

Definition digits_value (ds : jsstring) : Z :=
  foldl (λ acc c, 10 * acc + Z.of_N (c - 48)) 0 ds.

(** [parseInt(value, 10)]: leading white space is skipped, one sign is
    read, then the longest run of decimal digits; no digit gives [NaN].
    The result is the integer read; it is the Number the call returns as
    long as that integer is at most 2^53 in magnitude (beyond, the call
    returns the nearest double, or Infinity), and [-0] is not told from
    [0]. *)
Definition parseInt10 (value : option jsstring) : number :=
  let s := trimStart (ToString value) in
  let signed :=
    match s with
    | c :: t =>
        if bool_decide (c = 45%N) then (-1, t)
        else if bool_decide (c = 43%N) then (1, t)
        else (1, s)
    | [] => (1, s)
    end in
  match digits_prefix signed.2 with
  | [] => NaN
  | ds => Num (signed.1 * digits_value ds)
  end.

(** The values met by [&&] and [isNaN] in the handlers. *)
Inductive prim :=
  | PNum (n : number)
  | PBool (b : bool).

Definition truthy (v : prim) : bool :=
  match v with
  | PNum NaN => false
  | PNum (Num z) => negb (bool_decide (z = 0))
  | PBool b => b
  end.

(** [a && b]. *)
Definition js_and (a b : prim) : prim := if truthy a then b else a.

(** [isNaN(v)]: a boolean converts to 0 or 1. *)
Definition isNaN (v : prim) : bool :=
  match v with
  | PNum NaN => true
  | _ => false
  end.

(** A cell is truthy when it is there and not empty. *)
Definition truthy_cell (value : option jsstring) : bool :=
  match value with
  | Some (_ :: _) => true
  | _ => false
  end.

(** [s.split(sep)] for a separator of one code unit. *)
Fixpoint split (sep : N) (s : jsstring) : list jsstring :=
  match s with
  | [] => [[]]
  | c :: s' =>
      if bool_decide (c = sep) then [] :: split sep s'
      else match split sep s' with
           | part :: parts => (c :: part) :: parts
           | [] => [[c]]
           end
  end.

(** ** The helpers *)

Definition parseUUID (value : option jsstring) : outcome (option jsstring) :=
  cleanedValue ← call_trim value;
  if bool_decide (cleanedValue = [])
     || negb (bool_decide (length cleanedValue = 36%nat))
  then mret None
  else mret (Some cleanedValue).

Definition parseString (value : option jsstring) : jsstring :=
  match value with
  | Some ((_ :: _) as v) => trim v
  | _ => []
  end.

Definition parseIntValue (value : option jsstring) : number :=
  let parsed := parseInt10 value in
  if isNaN (PNum parsed) then Num 0 else parsed.

(** [parseDate], with the construction of the date taken as the parameter
    [new_Date]: applied to the three parts it stands for
    [dateParts.map(Number)], [new Date(year, month - 1, day)] and the
    test [isNaN(parsedDate.getTime())], [None] being [null]. *)
Definition parseDate {Date : Type}
    (new_Date : jsstring → jsstring → jsstring → option Date)
    (value : option jsstring) : outcome (option Date) :=
  match value with
  | None => TypeError
  | Some v =>
      match split 47 v with
      | [day; month; year] => mret (new_Date day month year)
      | _ => mret None
      end
  end.

(** ** The ['data'] handlers *)

Abbreviation csv_row := (gmap string jsstring).

(** The handler is called on the rows in file order, on an array that
    starts empty; a throw ends the run. *)
Definition on_rows {A : Type}
    (handler : csv_row → list A → outcome (list A))
    (rows : list csv_row) : outcome (list A) :=
  foldl (λ acc row, collected ← acc; handler row collected) (Value []) rows.

Module User.
Record t {Date : Type} := {
  id : jsstring;
  username : jsstring;
  description : jsstring;
  experience : number;
  lastConnection : option Date
}.
Arguments t : clear implicits.
End User.

Definition importUsers_data {Date : Type}
    (new_Date : jsstring → jsstring → jsstring → option Date)
    (row : csv_row) (users : list (User.t Date)) : outcome (list (User.t Date)) :=
  id ← parseUUID (row !! "id");
  let username := parseString (row !! "username") in
  let description := parseString (row !! "description") in
  let experience := parseIntValue (row !! "experience") in
  lastConnection ← parseDate new_Date (row !! "lastConnection");
  match id with
  | Some id =>
      mret (users ++ [ {| User.id := id;
                          User.username := username;
                          User.description := description;
                          User.experience := experience;
                          User.lastConnection := lastConnection |} ])%list
  | None => mret users
  end.

Module Level.
Record t := {
  level_number : number;
  experience_required : number
}.
End Level.

Definition importLevels_data (row : csv_row) (levels : list Level.t)
  : outcome (list Level.t) :=
  level_number ← call_trim (row !! "level_number");
  let levelNumber := parseInt10 (Some level_number) in
  experience_required ← call_trim (row !! "experience_required");
  let experienceRequired := parseInt10 (Some experience_required) in
  mret (levels ++ [ {| Level.level_number := levelNumber;
                       Level.experience_required := experienceRequired |} ])%list.

Module Achievement.
Record t := {
  name : jsstring;
  description : jsstring;
  experience_otorgued : number
}.
End Achievement.

Definition importAchievements_data (row : csv_row) (achievements : list Achievement.t)
  : outcome (list Achievement.t) :=
  let experience := parseInt10 (row !! "experience_otorgued") in
  if negb (isNaN (PNum experience))
     && truthy_cell (row !! "name")
     && truthy_cell (row !! "description")
  then
    name ← call_trim (row !! "name");
    description ← call_trim (row !! "description");
    mret (achievements ++ [ {| Achievement.name := name;
                               Achievement.description := description;
                               Achievement.experience_otorgued := experience |} ])%list
  else mret achievements.

Module User_achievement.
Record t := {
  id_user : jsstring;
  id_achievement : number;
  achieved : bool
}.
End User_achievement.

(** The handler of [importUserAch], with [String.prototype.toLowerCase]
    taken as the parameter [toLowerCase].  [achieved] is a boolean, so
    [typeof achieved === 'boolean'] is [true]. *)
Definition importUserAch_data (toLowerCase : jsstring → jsstring)
    (row : csv_row) (userAchievements : list User_achievement.t)
  : outcome (list User_achievement.t) :=
  idUser ← parseUUID (row !! "id_user");
  let idAchievement := parseInt10 (row !! "id_achievement") in
  let achieved :=
    bool_decide (toLowerCase (ToString (row !! "achieved")) = units "true") in
  match idUser with
  | Some id_user =>
      if negb (isNaN (js_and (PNum idAchievement) (PBool true)))
      then mret (userAchievements ++
                   [ {| User_achievement.id_user := id_user;
                        User_achievement.id_achievement := idAchievement;
                        User_achievement.achieved := achieved |} ])%list
      else mret userAchievements
  | None => mret userAchievements
  end.

Module Item.
Record t := {
  name : jsstring;
  type : jsstring
}.
End Item.

Definition importItems_data (row : csv_row) (items : list Item.t)
  : outcome (list Item.t) :=
  let name := parseString (row !! "name") in
  let type := parseString (row !! "type") in
  mret (items ++ [ {| Item.name := name; Item.type := type |} ])%list.

(** ** Sample cells and rows *)

(** 36 code units, none of them white space and none a hexadecimal digit. *)
Definition sample_id : jsstring := replicate 36 122%N.

Definition sample_user_row : csv_row :=
  {[ "id" := (units "  " ++ sample_id ++ units " ")%list;
     "username" := units " ana ";
     "lastConnection" := units "31/12/2024" ]}.

Definition short_id_row : csv_row :=
  {[ "id" := units "1234"; "lastConnection" := units "31/12/2024" ]}.

(** A date builder for the samples: it accepts every triple of parts. *)
Definition sample_new_Date (day month year : jsstring) : option (list jsstring) :=
  Some [day; month; year].

(** The user read from [sample_user_row]. *)
Definition sample_user : User.t (list jsstring) :=
  {| User.id := sample_id;
     User.username := units "ana";
     User.description := [];
     User.experience := Num 0;
     User.lastConnection := Some [units "31"; units "12"; units "2024"] |}.

(** An achievement whose name is a single space, and a level and a link
    between user and achievement whose numbers do not parse or are 0. *)
Definition blank_name_row : csv_row :=
  {[ "name" := units " "; "description" := units "first win";
     "experience_otorgued" := units "50" ]}.

Definition unparsable_level_row : csv_row :=
  {[ "level_number" := units "one"; "experience_required" := units " 100 " ]}.

Definition zero_achievement_row : csv_row :=
  {[ "id_user" := sample_id; "id_achievement" := units "0";
     "achieved" := units "TRUE" ]}.

(** A lower-casing for the samples: it maps the letters A to Z. *)
Definition sample_toLowerCase (s : jsstring) : jsstring :=
  (λ c, if (65 <=? c)%N && (c <=? 90)%N then (c + 32)%N else c) <$> s.

(** ** Where clauses that fix the primary key *)

Section select_lemmas.
Implicit Types (t : gmap Z PrivRow) (r : PrivRow) (k : Z) (w : where_clause).

Lemma matches_id k w i r :
  Priv.matches (("id", VNum k) :: w) i r = true ↔ i = k ∧ Priv.matches w i r = true.
Proof.
  unfold Priv.matches; simpl. rewrite andb_true_iff, bool_decide_eq_true.
  unfold Priv.column; simpl. split; intros [H ?]; split; try done; congruence.
Qed.

Lemma select_by_id k w t :
  Priv.select (("id", VNum k) :: w) t =
    match t !! k with
    | Some r => if Priv.matches w k r then {[ k := r ]} else ∅
    | None => ∅
    end.
Proof.
  apply map_eq; intros i. unfold Priv.select.
  destruct (filter _ t !! i) as [x|] eqn:E.
  - apply map_lookup_filter_Some in E as [Hi Hm]; simpl in Hm.
    apply matches_id in Hm as [-> Hm]. rewrite Hi, Hm.
    by rewrite lookup_singleton_eq.
  - symmetry. destruct (t !! k) as [r|] eqn:Hk; [|done].
    destruct (Priv.matches w k r) eqn:Hm; [|done].
    destruct (decide (i = k)) as [->|Hne]; [|by rewrite lookup_singleton_ne].
    exfalso. apply map_lookup_filter_None in E as [E|E]; [congruence|].
    apply (E r Hk). simpl. by apply matches_id.
Qed.

End select_lemmas.

(** ** What each operation computes *)

Section equations.
Implicit Types (db : Db) (r : PrivRow) (k gameId : Z) (w : where_clause).

Lemma findOne_by_id k w db :
  Priv.findOne (("id", VNum k) :: w) db =
    (Returned match Privs db !! k with
              | Some r => if Priv.matches w k r then Some (k, r) else None
              | None => None
              end,
     db).
Proof.
  unfold Priv.findOne. rewrite select_by_id.
  destruct (Privs db !! k) as [r|]; [destruct (Priv.matches w k r)|];
    by rewrite ?map_to_list_singleton, ?map_to_list_empty.
Qed.

Lemma destroy_by_id k db :
  Priv.destroy [("id", VNum k)] db =
    (Returned (match Privs db !! k with Some _ => 1 | None => 0 end),
     {| Games := Games db; Privs := delete k (Privs db) |}).
Proof.
  unfold Priv.destroy. rewrite select_by_id.
  destruct (Privs db !! k) as [r|] eqn:Hk; simpl.
  - rewrite map_size_singleton. do 2 f_equal.
    apply map_eq; intros i. rewrite lookup_difference.
    destruct (decide (i = k)) as [->|Hne].
    + by rewrite lookup_singleton_eq, lookup_delete_eq.
    + by rewrite lookup_singleton_ne, lookup_delete_ne.
  - by rewrite map_size_empty, map_difference_empty, delete_id.
Qed.

Lemma matches_passwd k r p :
  Priv.matches [("passwd", VStr p)] k r = bool_decide (passwd r = p).
Proof.
  unfold Priv.matches, Priv.column; simpl. rewrite andb_true_r.
  apply bool_decide_ext. split; congruence.
Qed.

Lemma joinPrivateGame_eq gameId p db :
  joinPrivateGame gameId p db =
    (Returned match Privs db !! gameId with
              | Some r =>
                  if decide (passwd r = p)
                  then Some {[ "link" := VStr (link r) ]}
                  else None
              | None => None
              end,
     db).
Proof.
  unfold joinPrivateGame, try_catch, mbind, Async_bind.
  rewrite findOne_by_id.
  destruct (Privs db !! gameId) as [r|]; [|done].
  rewrite matches_passwd. rewrite bool_decide_decide.
  by destruct (decide (passwd r = p)).
Qed.

Lemma getPlayers_eq gameId db :
  getPlayers gameId db = (Returned (currentPlayers <$> Privs db !! gameId), db).
Proof.
  unfold getPlayers, try_catch, mbind, Async_bind.
  rewrite findOne_by_id. by destruct (Privs db !! gameId).
Qed.

Lemma deletePrivateGame_eq gameId db :
  deletePrivateGame gameId db =
    (Returned (match Privs db !! gameId with Some _ => Some 1 | None => None end),
     {| Games := Games db; Privs := delete gameId (Privs db) |}).
Proof.
  unfold deletePrivateGame, try_catch, mbind, Async_bind.
  rewrite destroy_by_id. by destruct (Privs db !! gameId).
Qed.

Lemma getPrivateGames_eq db :
  getPrivateGames db =
    (Returned {| privateGames :=
                   (λ kr, Priv.project ["id"; "maxPlayers"; "currentPlayers"] kr.1 kr.2)
                     <$> map_to_list (Privs db) |},
     db).
Proof. reflexivity. Qed.

Lemma next_id_fresh db : Games db !! Game.next_id db = None.
Proof. unfold Game.next_id. apply not_elem_of_dom. apply is_fresh. Qed.

(** The three ways a creation can end. *)
Lemma createPrivateGame_from_eq endpoint p mp db :
  createPrivateGame_from endpoint p mp db =
    match endpoint with
    | Some (String _ _ as l) =>
        let id := Game.next_id db in
        let games' := <[id := {| status := ACTIVE |}]> (Games db) in
        match Privs db !! id with
        | Some _ =>
            (Thrown (mkError "Error creando partida privada: Validation error"),
             {| Games := games'; Privs := Privs db |})
        | None =>
            (Returned l,
             {| Games := games';
                Privs := <[id := {| passwd := p; link := l; maxPlayers := mp;
                                    currentPlayers := 0 |}]> (Privs db) |})
        end
    | _ =>
        (Thrown (mkError ("Error creando partida privada: " +:+
                          "No se pudo obtener el endpoint de la partida privada")),
         db)
    end.
Proof.
  unfold createPrivateGame_from, try_catch, mbind, Async_bind.
  destruct endpoint as [[|a l]|]; try reflexivity.
  unfold Game.create, Priv.create; simpl.
  by destruct (Privs db !! Game.next_id db).
Qed.

(** A creation that returns went through the last branch. *)
Lemma createPrivateGame_from_returned endpoint p mp db l db' :
  createPrivateGame_from endpoint p mp db = (Returned l, db') →
  endpoint = Some l ∧
  Privs db !! Game.next_id db = None ∧
  db' = {| Games := <[Game.next_id db := {| status := ACTIVE |}]> (Games db);
           Privs := <[Game.next_id db :=
                        {| passwd := p; link := l; maxPlayers := mp;
                           currentPlayers := 0 |}]> (Privs db) |}.
Proof.
  rewrite createPrivateGame_from_eq.
  destruct endpoint as [[|a s]|]; [discriminate| |discriminate].
  cbv zeta. destruct (Privs db !! Game.next_id db) eqn:Hp; [discriminate|].
  by intros [= <- <-].
Qed.

End equations.

(** ** The listing exposes three fields *)

Section listing.
Implicit Types (db : Db) (r : PrivRow) (id : Z) (o : obj).

Lemma project_public id r :
  Priv.project ["id"; "maxPlayers"; "currentPlayers"] id r =
    <["id" := VNum id]>
      (<["maxPlayers" := VNum (maxPlayers r)]>
         (<["currentPlayers" := VNum (currentPlayers r)]> ∅)).
Proof. reflexivity. Qed.

Lemma project_public_dom id r :
  dom (Priv.project ["id"; "maxPlayers"; "currentPlayers"] id r) = public_fields.
Proof.
  rewrite project_public, !dom_insert_L, dom_empty_L.
  unfold public_fields. set_solver.
Qed.

Lemma project_public_lookup id r c :
  Priv.project ["id"; "maxPlayers"; "currentPlayers"] id r !! c =
    if decide (c ∈ public_fields) then Priv.column c id r else None.
Proof.
  rewrite project_public. unfold public_fields, Priv.column.
  destruct (decide (c = "id")) as [->|?]; [done|].
  rewrite lookup_insert_ne by done.
  destruct (decide (c = "maxPlayers")) as [->|?]; [done|].
  rewrite lookup_insert_ne by done.
  destruct (decide (c = "currentPlayers")) as [->|?]; [done|].
  rewrite lookup_insert_ne by done. rewrite lookup_empty.
  case_decide as Hin; [|done]. exfalso.
  rewrite !elem_of_union, !elem_of_singleton in Hin. tauto.
Qed.

End listing.

(** ** Creation *)

(** C1 — a creation that returns has inserted exactly one Game row, with
    status ACTIVE and under an id no Game row had, and exactly one
    PrivateGame row under that same id, holding the given passwd and
    maxPlayers, the endpoint as link and currentPlayers = 0; the value
    returned is that endpoint, a string, and nothing else.  Stated for
    every endpoint the guard lets through, so in particular for the one
    [createPrivateGame] uses. *)
Theorem createPrivateGame_creates_pair
    (endpoint : option string) (p : string) (mp : Z) (db db' : Db) (l : string) :
  createPrivateGame_from endpoint p mp db = (Returned l, db') →
  ∃ id : Z,
    Games db !! id = None ∧
    Privs db !! id = None ∧
    Games db' = <[id := {| status := ACTIVE |}]> (Games db) ∧
    Privs db' =
      <[id := {| passwd := p; link := l; maxPlayers := mp; currentPlayers := 0 |}]>
        (Privs db) ∧
    size (Games db') = S (size (Games db)) ∧
    size (Privs db') = S (size (Privs db)) ∧
    endpoint = Some l.
Proof.
  intros (-> & Hp & ->)%createPrivateGame_from_returned.
  exists (Game.next_id db); simpl.
  pose proof (next_id_fresh db) as Hg.
  repeat split; try done; by apply map_size_insert_None.
Qed.

Lemma createPrivateGame_creates_pair_witness :
  ∃ id : Z,
    Games empty_db !! id = None ∧
    Privs empty_db !! id = None ∧
    Games scenario_db = <[id := {| status := ACTIVE |}]> (Games empty_db) ∧
    Privs scenario_db =
      <[id := {| passwd := "abc123";
                 link := "http://localhost:3000/api/privateGames";
                 maxPlayers := 4; currentPlayers := 0 |}]> (Privs empty_db) ∧
    size (Games scenario_db) = S (size (Games empty_db)) ∧
    size (Privs scenario_db) = S (size (Privs empty_db)) ∧
    gameEndpoint = Some "http://localhost:3000/api/privateGames".
Proof.
  apply (createPrivateGame_creates_pair gameEndpoint "abc123" 4
           empty_db scenario_db "http://localhost:3000/api/privateGames").
  vm_compute. reflexivity.
Defined.

(** ** Joining *)

(** C2 — [joinPrivateGame] returns an object exactly when a row is stored
    under [gameId] whose passwd equals the given one, and that object is
    [{ link }] with the stored link; in every other case (no such id, or
    another passwd) it returns [null].  It never throws and never writes. *)
Theorem joinPrivateGame_link_iff_match (gameId : Z) (p : string) (db : Db) :
  (∀ o : obj,
     (joinPrivateGame gameId p db).1 = Returned (Some o) ↔
     ∃ r, Privs db !! gameId = Some r ∧ passwd r = p ∧
          o = {[ "link" := VStr (link r) ]}) ∧
  ((joinPrivateGame gameId p db).1 = Returned None ↔
   ¬ ∃ r, Privs db !! gameId = Some r ∧ passwd r = p) ∧
  (∀ e, (joinPrivateGame gameId p db).1 ≠ Thrown e) ∧
  (joinPrivateGame gameId p db).2 = db.
Proof.
  rewrite joinPrivateGame_eq; simpl.
  destruct (Privs db !! gameId) as [r|] eqn:Hr;
    [destruct (decide (passwd r = p)) as [Hp|Hp]|];
    (split; [|split; [|split; [congruence|done]]]).
  - intros o; split.
    + intros [= <-]. by exists r.
    + intros (r' & [= <-] & _ & ->). done.
  - split; [discriminate|]. intros []; by exists r.
  - intros o; split; [discriminate|]. intros (r' & [= <-] & ? & _). done.
  - split; [|done]. intros _ (r' & [= <-] & ?). done.
  - intros o; split; [discriminate|]. intros (r' & ? & _). done.
  - split; [|done]. intros _ (r' & ? & _). done.
Qed.

Lemma joinPrivateGame_link_iff_match_witness :
  (joinPrivateGame 0 "abc123" scenario_db).1 =
    Returned (Some {[ "link" := VStr "http://localhost:3000/api/privateGames" ]})
  ∧ (joinPrivateGame 0 "wrong" scenario_db).1 = Returned None
  ∧ (joinPrivateGame 5 "abc123" scenario_db).1 = Returned None.
Proof.
  split; [|split].
  - apply (joinPrivateGame_link_iff_match 0 "abc123" scenario_db).
    exists scenario_row. repeat split; reflexivity.
  - apply (joinPrivateGame_link_iff_match 0 "wrong" scenario_db).
    intros (r & Hr & Hp). vm_compute in Hr. injection Hr as <-. discriminate Hp.
  - apply (joinPrivateGame_link_iff_match 5 "abc123" scenario_db).
    intros (r & Hr & _). vm_compute in Hr. discriminate Hr.
Defined.

(** C8 — for a stored game, any two passwords that both differ from the
    stored one give the same outcome, and that outcome is the one of a
    join on an id under which nothing is stored: [null], database
    unchanged.  The result does not tell a wrong password from a missing
    game. *)
Theorem joinPrivateGame_wrong_passwd_as_missing
    (db : Db) (gameId otherId : Z) (r : PrivRow) (p1 p2 p3 : string) :
  Privs db !! gameId = Some r →
  p1 ≠ passwd r →
  p2 ≠ passwd r →
  Privs db !! otherId = None →
  joinPrivateGame gameId p1 db = joinPrivateGame gameId p2 db ∧
  joinPrivateGame gameId p1 db = joinPrivateGame otherId p3 db ∧
  joinPrivateGame gameId p1 db = (Returned None, db).
Proof.
  intros Hr H1 H2 Ho. rewrite !joinPrivateGame_eq, Hr, Ho.
  destruct (decide (passwd r = p1)); [congruence|].
  destruct (decide (passwd r = p2)); [congruence|]. done.
Qed.

Lemma joinPrivateGame_wrong_passwd_as_missing_witness :
  joinPrivateGame 0 "wrong" scenario_db = joinPrivateGame 0 "" scenario_db ∧
  joinPrivateGame 0 "wrong" scenario_db = joinPrivateGame 5 "abc123" scenario_db ∧
  joinPrivateGame 0 "wrong" scenario_db = (Returned None, scenario_db).
Proof.
  apply (joinPrivateGame_wrong_passwd_as_missing
           scenario_db 0 5 scenario_row "wrong" "" "abc123").
  - reflexivity.
  - vm_compute. discriminate.
  - vm_compute. discriminate.
  - reflexivity.
Defined.

(** ** Listing *)

(** C4 — [getPrivateGames] returns, without writing, a list with one entry
    per stored private game: every entry has exactly the fields id,
    maxPlayers and currentPlayers (so neither passwd nor link), holding
    the values of a stored row, and every stored row has its entry. *)
Theorem getPrivateGames_public_only (db : Db) :
  ∃ listing : list obj,
    getPrivateGames db = (Returned {| privateGames := listing |}, db) ∧
    length listing = size (Privs db) ∧
    (∀ o, o ∈ listing →
       dom o = {[ "id"; "maxPlayers"; "currentPlayers" ]} ∧
       o !! "passwd" = None ∧
       o !! "link" = None ∧
       ∃ id r, Privs db !! id = Some r ∧
               o !! "id" = Some (VNum id) ∧
               o !! "maxPlayers" = Some (VNum (maxPlayers r)) ∧
               o !! "currentPlayers" = Some (VNum (currentPlayers r))) ∧
    (∀ id r, Privs db !! id = Some r →
       ∃ o, o ∈ listing ∧
            o !! "id" = Some (VNum id) ∧
            o !! "maxPlayers" = Some (VNum (maxPlayers r)) ∧
            o !! "currentPlayers" = Some (VNum (currentPlayers r))).
Proof.
  eexists. split; [apply getPrivateGames_eq|].
  split; [by rewrite length_fmap, length_map_to_list|]. split.
  - intros o Ho. apply list_elem_of_fmap in Ho as ([id r] & -> & Hin).
    apply elem_of_map_to_list in Hin. cbn [fst snd].
    split; [apply project_public_dom|].
    rewrite project_public. repeat split; try done.
    by exists id, r.
  - intros id r Hr. eexists. split.
    + apply list_elem_of_fmap. exists (id, r). split; [reflexivity|].
      by apply elem_of_map_to_list.
    + cbn [fst snd]. by rewrite project_public.
Qed.

Lemma getPrivateGames_public_only_witness :
  ∃ listing : list obj,
    getPrivateGames scenario_db =
      (Returned {| privateGames := listing |}, scenario_db) ∧
    length listing = 1%nat ∧
    ∃ o, o ∈ listing ∧
         o !! "id" = Some (VNum 0) ∧
         o !! "maxPlayers" = Some (VNum 4) ∧
         o !! "currentPlayers" = Some (VNum 0) ∧
         o !! "passwd" = None ∧
         o !! "link" = None.
Proof.
  destruct (getPrivateGames_public_only scenario_db)
    as (listing & Heq & Hlen & Hall & Hex).
  exists listing. split; [exact Heq|]. split; [exact Hlen|].
  destruct (Hex 0 scenario_row) as (o & Ho & Hid & Hmax & Hcur); [reflexivity|].
  exists o. destruct (Hall o Ho) as (_ & Hpw & Hlk & _).
  repeat split; assumption.
Defined.

(** ** Deleting *)

(** C5 — deleting a stored private game returns a positive number of rows
    and removes the row (and no other), so that deleting it again returns
    [null]; deleting under an id with no row returns [null] and changes
    nothing. *)
Theorem deletePrivateGame_once (gameId : Z) (db : Db) :
  (∀ r, Privs db !! gameId = Some r →
     ∃ (n : Z) (db' : Db),
       deletePrivateGame gameId db = (Returned (Some n), db') ∧
       0 < n ∧
       Privs db' !! gameId = None ∧
       (∀ k, k ≠ gameId → Privs db' !! k = Privs db !! k) ∧
       deletePrivateGame gameId db' = (Returned None, db')) ∧
  (Privs db !! gameId = None →
     deletePrivateGame gameId db = (Returned None, db)).
Proof.
  split.
  - intros r Hr. eexists 1, _. rewrite deletePrivateGame_eq, Hr.
    split; [reflexivity|]. split; [lia|]. simpl.
    split; [apply lookup_delete_eq|].
    split; [intros k Hk; by apply lookup_delete_ne|].
    rewrite deletePrivateGame_eq; simpl.
    by rewrite lookup_delete_eq, delete_delete_eq.
  - intros Hr. rewrite deletePrivateGame_eq, Hr, delete_id by done.
    by destruct db.
Qed.

Lemma deletePrivateGame_once_witness :
  (∃ (n : Z) (db' : Db),
     deletePrivateGame 0 scenario_db = (Returned (Some n), db') ∧
     0 < n ∧
     Privs db' !! 0 = None ∧
     (∀ k, k ≠ 0 → Privs db' !! k = Privs scenario_db !! k) ∧
     deletePrivateGame 0 db' = (Returned None, db')) ∧
  deletePrivateGame 5 scenario_db = (Returned None, scenario_db).
Proof.
  split.
  - apply (deletePrivateGame_once 0 scenario_db) with (r := scenario_row).
    reflexivity.
  - apply (deletePrivateGame_once 5 scenario_db). reflexivity.
Defined.

(** C6 — [deletePrivateGame] leaves the Game table as it was, whatever the
    id: the Game row that shares the id of the removed private game
    stays. *)
Theorem deletePrivateGame_keeps_games (gameId : Z) (db : Db) :
  Games (deletePrivateGame gameId db).2 = Games db.
Proof. by rewrite deletePrivateGame_eq. Qed.

(** ** Counting players *)

(** C7 — [getPlayers] returns the stored currentPlayers of the row under
    [gameId], and [null] when there is none; right after a creation that
    returned, it returns 0 for the id of the new game; after
    [deletePrivateGame gameId] it returns [null]. *)
Theorem getPlayers_stored_or_null (gameId : Z) (db : Db) :
  (∀ r, Privs db !! gameId = Some r →
     getPlayers gameId db = (Returned (Some (currentPlayers r)), db)) ∧
  (Privs db !! gameId = None → getPlayers gameId db = (Returned None, db)) ∧
  (∀ p mp l db',
     createPrivateGame p mp db = (Returned l, db') →
     getPlayers (Game.next_id db) db' = (Returned (Some 0), db')) ∧
  (∀ db', db' = (deletePrivateGame gameId db).2 →
     getPlayers gameId db' = (Returned None, db')).
Proof.
  repeat split.
  - intros r Hr. by rewrite getPlayers_eq, Hr.
  - intros Hr. by rewrite getPlayers_eq, Hr.
  - intros p mp l db' Hc. rewrite getPlayers_eq.
    apply createPrivateGame_from_returned in Hc as (_ & _ & ->); simpl.
    by rewrite lookup_insert_eq.
  - intros db' ->. rewrite getPlayers_eq, deletePrivateGame_eq; simpl.
    by rewrite lookup_delete_eq.
Qed.

Lemma getPlayers_stored_or_null_witness :
  getPlayers 0 scenario_db = (Returned (Some 0), scenario_db) ∧
  getPlayers 5 scenario_db = (Returned None, scenario_db) ∧
  getPlayers (Game.next_id empty_db) scenario_db = (Returned (Some 0), scenario_db) ∧
  getPlayers 0 (deletePrivateGame 0 scenario_db).2 =
    (Returned None, (deletePrivateGame 0 scenario_db).2).
Proof.
  split; [|split; [|split]].
  - apply (getPlayers_stored_or_null 0 scenario_db) with (r := scenario_row).
    reflexivity.
  - apply (getPlayers_stored_or_null 5 scenario_db). reflexivity.
  - apply (getPlayers_stored_or_null 0 empty_db)
      with (p := "abc123") (mp := 4) (l := "http://localhost:3000/api/privateGames").
    vm_compute. reflexivity.
  - apply (getPlayers_stored_or_null 0 scenario_db). reflexivity.
Defined.

(** ** What holds after any sequence of calls *)

Section invariants.
Implicit Types (db : Db) (q : request) (r : PrivRow) (id : Z).

(** A call either leaves a private game as it found it or has just
    created it, with no player. *)
Lemma serve_privs q db id r :
  Privs (serve q db) !! id = Some r →
  Privs db !! id = Some r ∨ currentPlayers r = 0.
Proof.
  destruct q as [p mp| |gameId p|gameId|gameId]; unfold serve.
  - unfold createPrivateGame, gameEndpoint.
    rewrite createPrivateGame_from_eq; cbv zeta.
    destruct (Privs db !! Game.next_id db); simpl; [by left|].
    intros [[_ <-]|[_ ?]]%lookup_insert_Some; [by right|by left].
  - rewrite getPrivateGames_eq. by left.
  - rewrite joinPrivateGame_eq. by left.
  - rewrite deletePrivateGame_eq; simpl.
    intros [_ ?]%lookup_delete_Some. by left.
  - rewrite getPlayers_eq. by left.
Qed.

Lemma serve_referential q db : referential db → referential (serve q db).
Proof.
  unfold referential. intros Href.
  destruct q as [p mp| |gameId p|gameId|gameId]; unfold serve.
  - unfold createPrivateGame, gameEndpoint.
    rewrite createPrivateGame_from_eq; cbv zeta.
    destruct (Privs db !! Game.next_id db); simpl; rewrite ?dom_insert.
    + etrans; [exact Href|apply union_subseteq_r].
    + by apply union_mono_l.
  - by rewrite getPrivateGames_eq.
  - by rewrite joinPrivateGame_eq.
  - rewrite deletePrivateGame_eq; simpl. rewrite dom_delete.
    by apply subseteq_difference_l.
  - by rewrite getPlayers_eq.
Qed.

Lemma reachable_referential db : reachable db → referential db.
Proof.
  induction 1 as [|q db _ IH]; [|by apply serve_referential].
  unfold referential, empty_db; simpl. done.
Qed.

End invariants.

(** C9 — in every database reachable from the empty one by calls of the
    five service functions, every private game has currentPlayers = 0:
    creation stores 0 and no function changes the column. *)
Theorem reachable_currentPlayers_zero (db : Db) :
  reachable db →
  ∀ id r, Privs db !! id = Some r → currentPlayers r = 0.
Proof.
  induction 1 as [|q db _ IH]; intros id r Hr.
  - unfold empty_db in Hr; simpl in Hr. by rewrite lookup_empty in Hr.
  - apply serve_privs in Hr as [Hr|Hr]; eauto.
Qed.

Lemma reachable_currentPlayers_zero_witness :
  currentPlayers scenario_row = 0.
Proof.
  apply (reachable_currentPlayers_zero scenario_db) with (id := 0).
  - exact (reachable_serve (CreatePrivateGame "abc123" 4) empty_db reachable_empty).
  - reflexivity.
Defined.

(** ** The scenario of the specification, run *)

Example scenario_create :
  createPrivateGame "abc123" 4 empty_db =
    (Returned "http://localhost:3000/api/privateGames", scenario_db).
Proof. vm_compute. reflexivity. Qed.

Example scenario_join_wrong :
  joinPrivateGame 0 "wrong" scenario_db = (Returned None, scenario_db).
Proof. vm_compute. reflexivity. Qed.

Example scenario_join_right :
  joinPrivateGame 0 "abc123" scenario_db =
    (Returned (Some {[ "link" := VStr "http://localhost:3000/api/privateGames" ]}),
     scenario_db).
Proof. vm_compute. reflexivity. Qed.

Example scenario_delete_twice :
  deletePrivateGame 0 scenario_db =
    (Returned (Some 1), {| Games := Games scenario_db; Privs := ∅ |}) ∧
  deletePrivateGame 0 {| Games := Games scenario_db; Privs := ∅ |} =
    (Returned None, {| Games := Games scenario_db; Privs := ∅ |}).
Proof. split; vm_compute; reflexivity. Qed.

(** ** How the calls compose *)

Section composition.
Implicit Types (db : Db) (q : request) (r : PrivRow) (g : GameRow) (id : Z).

(** One call leaves every Game row where it is. *)
Lemma serve_games q db id g :
  Games db !! id = Some g → Games (serve q db) !! id = Some g.
Proof.
  intros Hg. destruct q as [p mp| |gameId p|gameId|gameId]; unfold serve.
  - unfold createPrivateGame, gameEndpoint.
    rewrite createPrivateGame_from_eq; cbv zeta.
    assert (Game.next_id db ≠ id) as Hne.
    { intros <-. by rewrite next_id_fresh in Hg. }
    destruct (Privs db !! Game.next_id db); simpl; by rewrite lookup_insert_ne.
  - by rewrite getPrivateGames_eq.
  - by rewrite joinPrivateGame_eq.
  - by rewrite deletePrivateGame_eq.
  - by rewrite getPlayers_eq.
Qed.

Lemma serve_all_games qs db id g :
  Games db !! id = Some g → Games (serve_all qs db) !! id = Some g.
Proof.
  revert db. induction qs as [|q qs IH]; intros db Hg; [done|].
  apply IH. by apply serve_games.
Qed.

(** One call writes a Game row only with status ACTIVE. *)
Lemma serve_games_active q db :
  (∀ id g, Games db !! id = Some g → status g = ACTIVE) →
  ∀ id g, Games (serve q db) !! id = Some g → status g = ACTIVE.
Proof.
  intros Hall id g. destruct q as [p mp| |gameId p|gameId|gameId]; unfold serve.
  - unfold createPrivateGame, gameEndpoint.
    rewrite createPrivateGame_from_eq; cbv zeta.
    destruct (Privs db !! Game.next_id db); simpl;
      intros [[_ <-]|[_ ?]]%lookup_insert_Some; eauto.
  - rewrite getPrivateGames_eq. apply Hall.
  - rewrite joinPrivateGame_eq. apply Hall.
  - rewrite deletePrivateGame_eq. apply Hall.
  - rewrite getPlayers_eq. apply Hall.
Qed.

End composition.

(** X1 — over any sequence of calls a Game row stays where it is and as it
    is, so the id of a game, also of one whose private game was deleted,
    is never generated again. *)
Theorem game_rows_stay_ids_not_reused
    (qs : list request) (db : Db) (id : Z) (g : GameRow) :
  Games db !! id = Some g →
  Games (serve_all qs db) !! id = Some g ∧
  Game.next_id (serve_all qs db) ≠ id.
Proof.
  intros Hg. pose proof (serve_all_games qs db id g Hg) as Hg'.
  split; [done|]. intros Heq.
  pose proof (next_id_fresh (serve_all qs db)) as Hfresh.
  rewrite Heq in Hfresh. congruence.
Qed.

Lemma game_rows_stay_ids_not_reused_witness :
  Games (serve_all [DeletePrivateGame 0; CreatePrivateGame "x" 2] scenario_db) !! 0 =
    Some {| status := ACTIVE |} ∧
  Game.next_id (serve_all [DeletePrivateGame 0; CreatePrivateGame "x" 2] scenario_db) ≠ 0.
Proof.
  apply (game_rows_stay_ids_not_reused
           [DeletePrivateGame 0; CreatePrivateGame "x" 2] scenario_db 0).
  reflexivity.
Defined.

(** X2 — in every reachable database each private game has a Game row
    under its id, and every Game row has status ACTIVE. *)
Theorem reachable_private_backed_by_active_game (db : Db) :
  reachable db →
  (∀ id r, Privs db !! id = Some r → ∃ g, Games db !! id = Some g) ∧
  (∀ id g, Games db !! id = Some g → status g = ACTIVE).
Proof.
  intros Hreach. split.
  - intros id r Hr. apply reachable_referential in Hreach.
    apply (elem_of_dom (Games db) id), Hreach, elem_of_dom. by exists r.
  - induction Hreach as [|q db _ IH].
    + intros id g Hg. unfold empty_db in Hg; simpl in Hg.
      by rewrite lookup_empty in Hg.
    + by apply serve_games_active.
Qed.

Lemma reachable_private_backed_by_active_game_witness :
  (∀ id r, Privs scenario_db !! id = Some r → ∃ g, Games scenario_db !! id = Some g) ∧
  (∀ id g, Games scenario_db !! id = Some g → status g = ACTIVE).
Proof.
  apply (reachable_private_backed_by_active_game scenario_db).
  exact (reachable_serve (CreatePrivateGame "abc123" 4) empty_db reachable_empty).
Defined.

(** X3 — a creation that returned shows in the next listing: the listing
    is one entry longer, keeps every entry it had, and has the entry of
    the new game, with the given maxPlayers and currentPlayers = 0. *)
Theorem createPrivateGame_then_listed
    (p : string) (mp : Z) (db db' : Db) (l : string) :
  createPrivateGame p mp db = (Returned l, db') →
  ∃ before after : list obj,
    getPrivateGames db = (Returned {| privateGames := before |}, db) ∧
    getPrivateGames db' = (Returned {| privateGames := after |}, db') ∧
    length after = S (length before) ∧
    ({[ "id" := VNum (Game.next_id db); "maxPlayers" := VNum mp;
        "currentPlayers" := VNum 0 ]} : obj) ∈ after ∧
    ∀ o, o ∈ before → o ∈ after.
Proof.
  intros (_ & Hfree & ->)%createPrivateGame_from_returned.
  do 2 eexists. rewrite !getPrivateGames_eq. cbn [Privs].
  split; [reflexivity|]. split; [reflexivity|].
  pose proof (map_to_list_insert (Privs db) (Game.next_id db)
                {| passwd := p; link := l; maxPlayers := mp; currentPlayers := 0 |}
                Hfree) as Hperm.
  split; [|split].
  - by rewrite !length_fmap, Hperm.
  - rewrite Hperm, fmap_cons. apply list_elem_of_here.
  - intros o Ho. rewrite Hperm, fmap_cons. by apply list_elem_of_further.
Qed.

Lemma createPrivateGame_then_listed_witness :
  ∃ before after : list obj,
    getPrivateGames empty_db = (Returned {| privateGames := before |}, empty_db) ∧
    getPrivateGames scenario_db = (Returned {| privateGames := after |}, scenario_db) ∧
    length after = S (length before) ∧
    ({[ "id" := VNum (Game.next_id empty_db); "maxPlayers" := VNum 4;
        "currentPlayers" := VNum 0 ]} : obj) ∈ after ∧
    ∀ o, o ∈ before → o ∈ after.
Proof.
  apply (createPrivateGame_then_listed "abc123" 4 empty_db scenario_db
           "http://localhost:3000/api/privateGames").
  vm_compute. reflexivity.
Defined.

(** X4 — after a creation that returned, joining the new game with the
    passwd it was created with yields the link the creation returned, and
    joining it with any other passwd yields [null]. *)
Theorem createPrivateGame_then_join
    (p : string) (mp : Z) (db db' : Db) (l : string) :
  createPrivateGame p mp db = (Returned l, db') →
  joinPrivateGame (Game.next_id db) p db' =
    (Returned (Some {[ "link" := VStr l ]}), db') ∧
  ∀ p', p' ≠ p →
    joinPrivateGame (Game.next_id db) p' db' = (Returned None, db').
Proof.
  intros (_ & _ & ->)%createPrivateGame_from_returned.
  split; [|intros p' Hp']; rewrite joinPrivateGame_eq; cbn [Privs];
    rewrite lookup_insert_eq; cbn [passwd link]; by case_decide.
Qed.

Lemma createPrivateGame_then_join_witness :
  joinPrivateGame (Game.next_id empty_db) "abc123" scenario_db =
    (Returned (Some {[ "link" := VStr "http://localhost:3000/api/privateGames" ]}),
     scenario_db) ∧
  ∀ p', p' ≠ "abc123" →
    joinPrivateGame (Game.next_id empty_db) p' scenario_db = (Returned None, scenario_db).
Proof.
  apply (createPrivateGame_then_join "abc123" 4 empty_db scenario_db
           "http://localhost:3000/api/privateGames").
  vm_compute. reflexivity.
Defined.

(** X5 — once [deletePrivateGame gameId] has run, no passwd joins that
    game and no entry of the listing carries that id. *)
Theorem deletePrivateGame_then_gone (gameId : Z) (p : string) (db : Db) :
  joinPrivateGame gameId p (deletePrivateGame gameId db).2 =
    (Returned None, (deletePrivateGame gameId db).2) ∧
  ∃ listing : list obj,
    getPrivateGames (deletePrivateGame gameId db).2 =
      (Returned {| privateGames := listing |}, (deletePrivateGame gameId db).2) ∧
    ∀ o, o ∈ listing → o !! "id" ≠ Some (VNum gameId).
Proof.
  rewrite deletePrivateGame_eq; cbn [snd]. split.
  - rewrite joinPrivateGame_eq; cbn [Privs]. by rewrite lookup_delete_eq.
  - eexists. rewrite getPrivateGames_eq; cbn [Privs]. split; [reflexivity|].
    intros o ([id r] & -> & Hin)%list_elem_of_fmap.
    apply elem_of_map_to_list in Hin. cbn [fst snd].
    rewrite project_public. rewrite lookup_insert_eq. intros [= ->].
    by rewrite lookup_delete_eq in Hin.
Qed.

(** X7 — no call alters a stored private game: after any call the row is
    as it was, unless the call was [deletePrivateGame] of that very id, in
    which case it is gone. *)
Theorem private_row_kept_or_deleted (q : request) (db : Db) (id : Z) (r : PrivRow) :
  Privs db !! id = Some r →
  Privs (serve q db) !! id = Some r ∨
  (q = DeletePrivateGame id ∧ Privs (serve q db) !! id = None).
Proof.
  intros Hr. destruct q as [p mp| |gameId p|gameId|gameId]; unfold serve.
  - left. unfold createPrivateGame, gameEndpoint.
    rewrite createPrivateGame_from_eq; cbv zeta.
    destruct (Privs db !! Game.next_id db) eqn:Hn; simpl; [done|].
    rewrite lookup_insert_ne; [done|]. intros Heq. congruence.
  - left. by rewrite getPrivateGames_eq.
  - left. by rewrite joinPrivateGame_eq.
  - rewrite deletePrivateGame_eq; simpl.
    destruct (decide (gameId = id)) as [->|Hne].
    + right. by rewrite lookup_delete_eq.
    + left. by rewrite lookup_delete_ne.
  - left. by rewrite getPlayers_eq.
Qed.

Lemma private_row_kept_or_deleted_witness :
  Privs (serve (CreatePrivateGame "x" (-3)) scenario_db) !! 0 = Some scenario_row ∨
  (CreatePrivateGame "x" (-3) = DeletePrivateGame 0 ∧
   Privs (serve (CreatePrivateGame "x" (-3)) scenario_db) !! 0 = None).
Proof.
  apply (private_row_kept_or_deleted (CreatePrivateGame "x" (-3)) scenario_db 0).
  reflexivity.
Defined.

(** ** Trimming *)

Section trimming.
Implicit Types (s u : jsstring) (c : N).

Lemma trimStart_split s :
  ∃ a, s = (a ++ trimStart s)%list ∧ Forall (λ c, is_white_space c = true) a.
Proof.
  induction s as [|c s (a & Hs & Ha)]; [by exists []|]. simpl.
  destruct (is_white_space c) eqn:Hc; [|by exists []].
  exists (c :: a). split; [by rewrite <- app_comm_cons, <- Hs|by constructor].
Qed.

Lemma trimStart_head s c :
  head (trimStart s) = Some c → is_white_space c = false.
Proof.
  induction s as [|d s IH]; [done|]. simpl.
  destruct (is_white_space d) eqn:Hd; [done|]. by intros [= <-].
Qed.

Lemma trimStart_id s :
  (∀ c, head s = Some c → is_white_space c = false) → trimStart s = s.
Proof. destruct s as [|c s]; [done|]. intros H. simpl. by rewrite (H c). Qed.

Lemma trimEnd_split s :
  ∃ b, s = (trimEnd s ++ b)%list ∧ Forall (λ c, is_white_space c = true) b.
Proof.
  induction s as [|c s (b & Hs & Hb)]; [by exists []|]. simpl.
  destruct (trimEnd s) as [|d t] eqn:Ht.
  - simpl in Hs. subst b. destruct (is_white_space c) eqn:Hc.
    + exists (c :: s). split; [done|by constructor].
    + by exists s.
  - exists b. split; [|done]. by rewrite Hs at 1.
Qed.

Lemma trimEnd_last s c :
  last (trimEnd s) = Some c → is_white_space c = false.
Proof.
  induction s as [|d s IH]; [done|]. simpl.
  destruct (trimEnd s) as [|e t] eqn:Ht.
  - destruct (is_white_space d) eqn:Hd; simpl; [discriminate|].
    by intros [= <-].
  - intros Hl. apply IH. rewrite last_cons in Hl.
    destruct (last (e :: t)) eqn:He; [done|]. by apply last_None in He.
Qed.

Lemma trimEnd_id s :
  (∀ c, last s = Some c → is_white_space c = false) → trimEnd s = s.
Proof.
  induction s as [|d s IH]; [done|]. intros H. simpl.
  destruct s as [|e s].
  - simpl. by rewrite (H d).
  - rewrite IH; [done|]. intros c Hc. apply H.
    rewrite last_cons. by rewrite Hc.
Qed.

Lemma trimEnd_head s c :
  head (trimEnd s) = Some c → head s = Some c.
Proof.
  destruct (trimEnd_split s) as (b & Hs & _).
  destruct (trimEnd s) as [|d t]; [done|]. intros [= <-]. by rewrite Hs.
Qed.

Lemma trim_trimmed s : trimmed (trim s).
Proof.
  split; intros c Hc.
  - apply trimEnd_head in Hc. by apply trimStart_head in Hc.
  - by apply trimEnd_last in Hc.
Qed.

Lemma trimmed_trim s : trimmed s → trim s = s.
Proof.
  intros [Hh Hl]. unfold trim. rewrite trimStart_id by done.
  by apply trimEnd_id.
Qed.

Lemma trim_split s :
  ∃ a b, s = (a ++ trim s ++ b)%list ∧
         Forall (λ c, is_white_space c = true) a ∧
         Forall (λ c, is_white_space c = true) b.
Proof.
  destruct (trimStart_split s) as (a & Hs & Ha).
  destruct (trimEnd_split (trimStart s)) as (b & Ht & Hb).
  exists a, b. split; [|done]. unfold trim. by rewrite <- Ht.
Qed.

Lemma parseUUID_Some v u :
  parseUUID (Some v) = Value (Some u) ↔ u = trim v ∧ length (trim v) = 36%nat.
Proof.
  unfold parseUUID; simpl.
  destruct (decide (length (trim v) = 36%nat)) as [Hl|Hl].
  - rewrite (bool_decide_eq_true_2 _ Hl).
    rewrite bool_decide_eq_false_2 by (intros He; by rewrite He in Hl).
    simpl. split; [by intros [= <-]|by intros [-> _]].
  - rewrite (bool_decide_eq_false_2 _ Hl), orb_true_r.
    split; [discriminate|]. by intros [_ ?].
Qed.

End trimming.

(** ** The helpers of the import script *)

(** X8 — an id that [parseUUID] accepts is the argument with white space
    removed from both ends and nothing else: it has 36 code units, starts
    and ends with none of white space, and [parseUUID] returns it
    unchanged when given it again. *)
Theorem parseUUID_accepted (value : option jsstring) (u : jsstring) :
  parseUUID value = Value (Some u) →
  ∃ v a b,
    value = Some v ∧
    v = (a ++ u ++ b)%list ∧
    Forall (λ c, is_white_space c = true) a ∧
    Forall (λ c, is_white_space c = true) b ∧
    length u = 36%nat ∧
    trimmed u ∧
    parseUUID (Some u) = Value (Some u).
Proof.
  destruct value as [v|]; [|discriminate].
  intros [-> Hlen]%parseUUID_Some.
  destruct (trim_split v) as (a & b & Hv & Ha & Hb).
  pose proof (trim_trimmed v) as Htr.
  exists v, a, b. do 5 (split; [done|]). split; [done|].
  apply parseUUID_Some. by rewrite (trimmed_trim (trim v)).
Qed.

Lemma parseUUID_accepted_witness :
  ∃ v a b,
    sample_user_row !! "id" = Some v ∧
    v = (a ++ sample_id ++ b)%list ∧
    Forall (λ c, is_white_space c = true) a ∧
    Forall (λ c, is_white_space c = true) b ∧
    length sample_id = 36%nat ∧
    trimmed sample_id ∧
    parseUUID (Some sample_id) = Value (Some sample_id).
Proof.
  apply (parseUUID_accepted (sample_user_row !! "id") sample_id).
  vm_compute. reflexivity.
Defined.

(** X9 — [parseUUID] checks the length only: every string of 36 code
    units that neither starts nor ends with white space is returned as it
    is, whatever its code units; a string whose trimmed length is not 36
    gives [null]; [undefined] makes it throw. *)
Theorem parseUUID_checks_length_only (u : jsstring) :
  (length u = 36%nat → trimmed u → parseUUID (Some u) = Value (Some u)) ∧
  (length (trim u) ≠ 36%nat → parseUUID (Some u) = Value None) ∧
  parseUUID None = TypeError.
Proof.
  split; [|split; [|done]].
  - intros Hlen Htr. apply parseUUID_Some. by rewrite trimmed_trim.
  - intros Hlen. unfold parseUUID; simpl.
    rewrite (bool_decide_eq_false_2 (length (trim u) = 36%nat)) by done.
    by rewrite orb_true_r.
Qed.

Lemma parseUUID_checks_length_only_witness :
  parseUUID (Some sample_id) = Value (Some sample_id) ∧
  parseUUID (Some (units "1234")) = Value None.
Proof.
  split.
  - apply (parseUUID_checks_length_only sample_id); [reflexivity|].
    split; intros c [= <-]; reflexivity.
  - apply (parseUUID_checks_length_only (units "1234")).
    vm_compute. discriminate.
Defined.

(** X10 — [parseString] never throws and removes white space from the two
    ends only: the result neither starts nor ends with white space, the
    argument is the result between two runs of white space, parsing the
    result again changes nothing, and [undefined] gives the empty
    string. *)
Theorem parseString_trims (value : option jsstring) :
  trimmed (parseString value) ∧
  parseString (Some (parseString value)) = parseString value ∧
  (∀ v, value = Some v →
     ∃ a b, v = (a ++ parseString value ++ b)%list ∧
            Forall (λ c, is_white_space c = true) a ∧
            Forall (λ c, is_white_space c = true) b) ∧
  (value = None → parseString value = []).
Proof.
  assert (∀ v, parseString (Some v) = trim v) as Htrim
    by (intros [|c s]; reflexivity).
  destruct value as [v|]; [rewrite !Htrim|].
  - split; [apply trim_trimmed|]. split.
    + by rewrite (trimmed_trim (trim v)) by apply trim_trimmed.
    + split; [|done]. intros ? [= <-]. apply trim_split.
  - simpl. split; [by split|]. split; [done|]. by split.
Qed.

Lemma parseString_trims_witness :
  ∃ a b, units " ana " = (a ++ parseString (Some (units " ana ")) ++ b)%list ∧
         Forall (λ c, is_white_space c = true) a ∧
         Forall (λ c, is_white_space c = true) b.
Proof.
  apply (parseString_trims (Some (units " ana "))). reflexivity.
Defined.

(** ** Numbers and dates in cells *)

Section numbers.
Implicit Types (s a ds rest : jsstring) (c : N).
Local Open Scope list_scope.

Lemma is_digit_range c : is_digit c = true ↔ (48 ≤ c ≤ 57)%N.
Proof. unfold is_digit. rewrite andb_true_iff, !N.leb_le. done. Qed.

Lemma is_digit_not_white_space c : is_digit c = true → is_white_space c = false.
Proof.
  intros Hd%is_digit_range. apply not_true_is_false. unfold is_white_space.
  rewrite orb_true_iff, bool_decide_eq_true, andb_true_iff, !N.leb_le.
  rewrite !elem_of_cons, elem_of_nil. lia.
Qed.

Lemma trimStart_app a s :
  Forall (λ c, is_white_space c = true) a →
  (∀ c, head s = Some c → is_white_space c = false) →
  trimStart (a ++ s) = s.
Proof.
  intros Ha Hs. induction Ha as [|c a Hc _ IH]; simpl.
  - by apply trimStart_id.
  - by rewrite Hc.
Qed.

Lemma digits_prefix_app ds rest :
  Forall (λ c, is_digit c = true) ds →
  (∀ c, head rest = Some c → is_digit c = false) →
  digits_prefix (ds ++ rest) = ds.
Proof.
  intros Hds Hrest. induction Hds as [|c ds Hc _ IH]; simpl.
  - destruct rest as [|c rest]; [done|]. simpl. by rewrite (Hrest c).
  - by rewrite Hc, IH.
Qed.

(** What [parseInt] reads once the white space is gone. *)
Lemma parseInt10_trimStart s :
  parseInt10 (Some s) = parseInt10 (Some (trimStart s)).
Proof.
  unfold parseInt10; simpl. f_equal.
  rewrite (trimStart_id (trimStart s)); [done|]. apply trimStart_head.
Qed.

Lemma parseInt10_digits ds rest :
  ds ≠ [] →
  Forall (λ c, is_digit c = true) ds →
  (∀ c, head rest = Some c → is_digit c = false) →
  parseInt10 (Some (ds ++ rest)) = Num (digits_value ds) ∧
  parseInt10 (Some (45%N :: ds ++ rest)) = Num (- digits_value ds) ∧
  parseInt10 (Some (43%N :: ds ++ rest)) = Num (digits_value ds).
Proof.
  intros Hne Hds Hrest.
  pose proof (digits_prefix_app ds rest Hds Hrest) as Hpre.
  destruct ds as [|d ds']; [done|].
  pose proof (Forall_inv Hds) as Hd. cbn beta in Hd.
  pose proof (is_digit_not_white_space d Hd) as Hw.
  apply is_digit_range in Hd.
  unfold parseInt10; simpl ToString; cbv zeta. split; [|split].
  - rewrite trimStart_id by (intros c [= <-]; done).
    rewrite !bool_decide_eq_false_2 by lia. cbn [fst snd].
    rewrite (app_comm_cons ds' rest d), Hpre. f_equal; lia.
  - rewrite trimStart_id by (intros c [= <-]; done).
    rewrite bool_decide_eq_true_2 by done. cbn [fst snd].
    rewrite (app_comm_cons ds' rest d), Hpre. f_equal; lia.
  - rewrite trimStart_id by (intros c [= <-]; done).
    rewrite bool_decide_eq_false_2 by done.
    rewrite bool_decide_eq_true_2 by done. cbn [fst snd].
    rewrite (app_comm_cons ds' rest d), Hpre. f_equal; lia.
Qed.

Lemma split_length sep s :
  length (split sep s) = S (length (filter (λ c, c = sep) s)).
Proof.
  induction s as [|c s IH]; [done|]. simpl.
  rewrite filter_cons. case_bool_decide as Hc.
  - rewrite decide_True by done. simpl. by rewrite IH.
  - rewrite decide_False by done.
    destruct (split sep s) as [|part parts]; [done|]. exact IH.
Qed.

Lemma split_cons sep s : ∃ part parts, split sep s = part :: parts.
Proof.
  pose proof (split_length sep s) as Hl.
  destruct (split sep s) as [|part parts]; [done|eauto].
Qed.

Lemma split_join sep s part parts :
  split sep s = part :: parts →
  s = part ++ mjoin (cons sep <$> parts).
Proof.
  revert part parts. induction s as [|c s IH]; intros part parts; simpl.
  - intros [= <- <-]. reflexivity.
  - destruct (split_cons sep s) as (p & ps & Hs). rewrite Hs.
    specialize (IH p ps Hs). case_bool_decide as Hc.
    + intros [= <- <-]. subst c. rewrite IH at 1. reflexivity.
    + intros [= <- <-]. rewrite IH at 1. reflexivity.
Qed.

End numbers.

(** X11 — [parseIntValue] reads the integer at the start of the cell:
    white space before it is skipped, a sign is honoured, and whatever
    follows the last digit is ignored.  Stated for a run of digits worth
    at most 2^53, the range in which the Number returned is the integer
    read, and, under a minus sign, for a run that is not worth 0. *)
Theorem parseIntValue_reads_leading_integer (a ds rest : jsstring) :
  Forall (λ c, is_white_space c = true) a →
  ds ≠ [] →
  Forall (λ c, is_digit c = true) ds →
  (∀ c, head rest = Some c → is_digit c = false) →
  (digits_value ds ≤ 2 ^ 53)%Z →
  parseIntValue (Some (a ++ ds ++ rest)%list) = Num (digits_value ds) ∧
  (digits_value ds ≠ 0 →
   parseIntValue (Some (a ++ 45%N :: ds ++ rest)%list) = Num (- digits_value ds)) ∧
  parseIntValue (Some (a ++ 43%N :: ds ++ rest)%list) = Num (digits_value ds).
Proof.
  intros Ha Hne Hds Hrest _.
  destruct (parseInt10_digits ds rest Hne Hds Hrest) as (H0 & Hm & Hp).
  unfold parseIntValue.
  rewrite (parseInt10_trimStart (a ++ ds ++ rest)),
    (parseInt10_trimStart (a ++ 45%N :: ds ++ rest)),
    (parseInt10_trimStart (a ++ 43%N :: ds ++ rest)).
  rewrite !trimStart_app; try done.
  - by rewrite H0, Hm, Hp.
  - by intros c [= <-].
  - by intros c [= <-].
  - destruct ds as [|d ds']; [done|]. intros c [= <-].
    apply is_digit_not_white_space. by apply (Forall_inv Hds).
Qed.

Lemma parseIntValue_reads_leading_integer_witness :
  parseIntValue (Some (units "  " ++ units "12" ++ units ".9 xp")%list) =
    Num (digits_value (units "12")) ∧
  (digits_value (units "12") ≠ 0 →
   parseIntValue (Some (units "  " ++ 45%N :: units "12" ++ units ".9 xp")%list) =
     Num (- digits_value (units "12"))) ∧
  parseIntValue (Some (units "  " ++ 43%N :: units "12" ++ units ".9 xp")%list) =
    Num (digits_value (units "12")).
Proof.
  apply (parseIntValue_reads_leading_integer (units "  ") (units "12") (units ".9 xp")).
  - repeat constructor.
  - discriminate.
  - repeat constructor.
  - intros c Hc. vm_compute in Hc. injection Hc as <-. reflexivity.
  - vm_compute. discriminate.
Defined.

(** X12 — where there is no integer to read, [parseIntValue] gives 0, not
    [NaN]: for [undefined], for a cell of white space only (the empty
    cell included), for a cell whose first code unit after the white
    space is neither a digit nor a sign, and for a sign that no digit
    follows. *)
Theorem parseIntValue_zero_without_digits (a t : jsstring) (c : N) :
  Forall (λ c, is_white_space c = true) a →
  is_white_space c = false →
  is_digit c = false →
  ((c = 45%N ∨ c = 43%N) → ∀ d, head t = Some d → is_digit d = false) →
  parseIntValue None = Num 0 ∧
  parseIntValue (Some a) = Num 0 ∧
  parseIntValue (Some (a ++ c :: t)%list) = Num 0.
Proof.
  intros Ha Hw Hd Hsign. split; [reflexivity|]. unfold parseIntValue. split.
  - rewrite parseInt10_trimStart.
    rewrite <- (app_nil_r a), trimStart_app by done. reflexivity.
  - rewrite parseInt10_trimStart, trimStart_app; [|done|by intros ? [= <-]].
    unfold parseInt10; simpl ToString; cbv zeta.
    rewrite trimStart_id by (by intros ? [= <-]).
    assert (digits_prefix t = [] ∨ (c ≠ 45%N ∧ c ≠ 43%N)) as [Ht|[H45 H43]].
    { destruct (decide (c = 45%N ∨ c = 43%N)) as [Hc|Hc]; [left|right; tauto].
      destruct t as [|d t']; [done|]. simpl. by rewrite (Hsign Hc d). }
    + repeat case_bool_decide; cbn [fst snd]; rewrite ?Ht; try done.
      simpl. by rewrite Hd.
    + rewrite !bool_decide_eq_false_2 by done. cbn [fst snd]. simpl.
      by rewrite Hd.
Qed.

Lemma parseIntValue_zero_without_digits_witness :
  parseIntValue None = Num 0 ∧
  parseIntValue (Some (units "  ")) = Num 0 ∧
  parseIntValue (Some (units "  " ++ 45%N :: units " 5")%list) = Num 0.
Proof.
  apply (parseIntValue_zero_without_digits (units "  ") (units " 5") 45%N).
  - repeat constructor.
  - reflexivity.
  - reflexivity.
  - intros _ d Hd. vm_compute in Hd. injection Hd as <-. reflexivity.
Defined.

(** X13 — [parseDate] throws on [undefined], gives [null] for every string
    that does not hold exactly two slashes, and otherwise builds the date
    from the three parts between them, day first. *)
Theorem parseDate_needs_two_slashes {Date : Type}
    (new_Date : jsstring → jsstring → jsstring → option Date) (v : jsstring) :
  parseDate new_Date None = TypeError ∧
  (length (filter (λ c, c = 47%N) v) ≠ 2%nat →
   parseDate new_Date (Some v) = Value None) ∧
  (length (filter (λ c, c = 47%N) v) = 2%nat →
   ∃ day month year,
     v = (day ++ 47%N :: month ++ 47%N :: year)%list ∧
     parseDate new_Date (Some v) = Value (new_Date day month year)).
Proof.
  split; [reflexivity|]. unfold parseDate.
  pose proof (split_length 47%N v) as Hlen.
  destruct (split 47%N v) as [|day [|month [|year [|x parts]]]] eqn:Hs;
    simpl in Hlen; (split; [intros Hn|intros Hn]); try done; try lia.
  exists day, month, year. split; [|done].
  rewrite (split_join 47%N v day [month; year] Hs). simpl.
  by rewrite app_nil_r.
Qed.

Lemma parseDate_needs_two_slashes_witness :
  parseDate sample_new_Date (Some (units "2024-12-31")) = Value None ∧
  ∃ day month year,
    units "31/12/2024" = (day ++ 47%N :: month ++ 47%N :: year)%list ∧
    parseDate sample_new_Date (Some (units "31/12/2024")) =
      Value (sample_new_Date day month year).
Proof.
  split.
  - apply (parseDate_needs_two_slashes sample_new_Date (units "2024-12-31")).
    vm_compute. discriminate.
  - apply (parseDate_needs_two_slashes sample_new_Date (units "31/12/2024")).
    reflexivity.
Defined.

(** ** The handlers run over a file *)

Section handlers.
Context {A : Type}.
Implicit Types (handler : csv_row → list A → outcome (list A))
  (rows : list csv_row) (row : csv_row) (acc : list A).
Local Open Scope list_scope.

Lemma on_rows_snoc handler rows row :
  on_rows handler (rows ++ [row]) =
    (collected ← on_rows handler rows; handler row collected).
Proof. unfold on_rows. by rewrite foldl_snoc. Qed.

(** The rule for a property the handler maintains. *)
Lemma on_rows_invariant handler (P : list csv_row → list A → Prop) :
  P [] [] →
  (∀ rows acc row acc',
     P rows acc → handler row acc = Value acc' → P (rows ++ [row]) acc') →
  ∀ rows acc, on_rows handler rows = Value acc → P rows acc.
Proof.
  intros Hnil Hstep rows. induction rows as [|row rows IH] using rev_ind.
  - by intros acc [= <-].
  - intros acc'. rewrite on_rows_snoc.
    destruct (on_rows handler rows) as [acc|] eqn:Hrun; [|done].
    simpl. intros Hrow. eapply Hstep; eauto.
Qed.

(** A run throws exactly when the handler throws on some row. *)
Lemma on_rows_TypeError handler (bad : csv_row → Prop) :
  (∀ row acc, handler row acc = TypeError ↔ bad row) →
  ∀ rows, on_rows handler rows = TypeError ↔ Exists bad rows.
Proof.
  intros Hbad rows. induction rows as [|row rows IH] using rev_ind.
  - split; [discriminate|]. by intros ?%Exists_nil.
  - rewrite on_rows_snoc, Exists_app, Exists_cons, Exists_nil.
    destruct (on_rows handler rows) as [acc|] eqn:Hrun; simpl.
    + rewrite Hbad. split; [tauto|]. intros [Hex|[?|[]]]; [|done].
      apply IH in Hex. discriminate.
    + split; [|done]. intros _. left. by apply IH.
Qed.

End handlers.

Section users.
Context {Date : Type} (new_Date : jsstring → jsstring → jsstring → option Date).
Implicit Types (row : csv_row) (users : list (User.t Date)).
Local Open Scope list_scope.

Lemma parseDate_TypeError (value : option jsstring) :
  parseDate new_Date value = TypeError ↔ value = None.
Proof.
  destruct value as [v|]; [|done]. unfold parseDate.
  split; [|done]. by destruct (split 47%N v) as [|? [|? [|? [|? ?]]]].
Qed.

Lemma parseUUID_TypeError (value : option jsstring) :
  parseUUID value = TypeError ↔ value = None.
Proof.
  destruct value as [v|]; [|done]. unfold parseUUID; simpl.
  split; [|done]. by case_match.
Qed.

Lemma importUsers_data_TypeError row users :
  importUsers_data new_Date row users = TypeError ↔
  row !! "id" = None ∨ row !! "lastConnection" = None.
Proof.
  unfold importUsers_data.
  destruct (parseUUID (row !! "id")) as [id|] eqn:Hid; simpl.
  - assert (row !! "id" ≠ None) as Hsome.
    { intros Hn. apply parseUUID_TypeError in Hn. congruence. }
    destruct (parseDate new_Date (row !! "lastConnection")) as [d|] eqn:Hd; simpl.
    + assert (row !! "lastConnection" ≠ None) as Hsome'.
      { intros Hn. apply parseDate_TypeError in Hn. congruence. }
      destruct id; (split; [discriminate|tauto]).
    + apply parseDate_TypeError in Hd. tauto.
  - apply parseUUID_TypeError in Hid. tauto.
Qed.

Lemma importUsers_data_Value row users users' :
  importUsers_data new_Date row users = Value users' →
  ∃ oid, parseUUID (row !! "id") = Value oid ∧
    match oid with
    | None => users' = users
    | Some id =>
        ∃ d, users' = users ++ [ {| User.id := id;
                                    User.username := parseString (row !! "username");
                                    User.description := parseString (row !! "description");
                                    User.experience := parseIntValue (row !! "experience");
                                    User.lastConnection := d |} ]
    end.
Proof.
  unfold importUsers_data.
  destruct (parseUUID (row !! "id")) as [oid|]; [|done]. simpl.
  destruct (parseDate new_Date (row !! "lastConnection")) as [d|]; [|done].
  simpl. destruct oid as [id|]; intros [= <-].
  - exists (Some id). split; [done|]. by exists d.
  - by exists None.
Qed.

End users.

Section rows.
Local Open Scope list_scope.

Lemma parseString_trimmed (value : option jsstring) : trimmed (parseString value).
Proof.
  destruct value as [[|c s]|]; [by split| |by split]. apply trim_trimmed.
Qed.

Lemma parseIntValue_not_NaN (value : option jsstring) : parseIntValue value ≠ NaN.
Proof. unfold parseIntValue. by destruct (parseInt10 value). Qed.

Lemma call_trim_truthy (value : option jsstring) :
  truthy_cell value = true → ∃ v, value = Some v ∧ v ≠ [] ∧ call_trim value = Value (trim v).
Proof. destruct value as [[|c s]|]; try done. intros _. by exists (c :: s). Qed.

(** What the handler of [importAchievements] does with one row. *)
Lemma importAchievements_data_cases (row : csv_row) (acc : list Achievement.t) :
  importAchievements_data row acc = Value acc ∨
  ∃ z n d,
    parseInt10 (row !! "experience_otorgued") = Num z ∧
    row !! "name" = Some n ∧ n ≠ [] ∧
    row !! "description" = Some d ∧ d ≠ [] ∧
    importAchievements_data row acc =
      Value (acc ++ [ {| Achievement.name := trim n;
                         Achievement.description := trim d;
                         Achievement.experience_otorgued := Num z |} ]).
Proof.
  unfold importAchievements_data.
  destruct (parseInt10 (row !! "experience_otorgued")) as [|z]; simpl; [by left|].
  destruct (truthy_cell (row !! "name")) eqn:Hn; simpl; [|by left].
  destruct (truthy_cell (row !! "description")) eqn:Hd; simpl; [|by left].
  apply call_trim_truthy in Hn as (n & Hn & Hne & ->).
  apply call_trim_truthy in Hd as (d & Hd & Hde & ->).
  right. exists z, n, d. by rewrite Hn, Hd.
Qed.

End rows.

(** X14 — when the handler of [importUsers] has gone through a file, the
    users it collected are the rows whose id [parseUUID] accepted, in
    file order, each with the accepted id, [parseString] of the username
    and of the description, [parseIntValue] of the experience and
    [parseDate] of the lastConnection of its row; every row had its id
    and its lastConnection cell.  Every collected id has 36 code units
    and no white space at its ends, username and description are
    trimmed, and experience is a number, never [NaN]. *)
Theorem importUsers_collects_valid_ids {Date : Type}
    (new_Date : jsstring → jsstring → jsstring → option Date)
    (rows : list csv_row) (users : list (User.t Date)) :
  on_rows (importUsers_data new_Date) rows = Value users →
  users =
    omap (λ row : csv_row,
            match parseUUID (row !! "id"),
                  parseDate new_Date (row !! "lastConnection") with
            | Value (Some id), Value lastConnection =>
                Some {| User.id := id;
                        User.username := parseString (row !! "username");
                        User.description := parseString (row !! "description");
                        User.experience := parseIntValue (row !! "experience");
                        User.lastConnection := lastConnection |}
            | _, _ => None
            end) rows ∧
  Forall (λ row : csv_row,
            is_Some (row !! "id") ∧ is_Some (row !! "lastConnection")) rows ∧
  User.id <$> users =
    omap (λ row : csv_row,
            match parseUUID (row !! "id") with
            | Value (Some id) => Some id
            | _ => None
            end) rows ∧
  Forall (λ u, length (User.id u) = 36%nat ∧
               trimmed (User.id u) ∧
               trimmed (User.username u) ∧
               trimmed (User.description u) ∧
               User.experience u ≠ NaN) users.
Proof.
  revert rows users.
  apply (on_rows_invariant (importUsers_data new_Date)
           (λ rows users, _ ∧ _ ∧ _ ∧ _)); [by repeat split|].
  intros rows acc row acc' (Hrec & Hcells & Hids & Hall) Hrow.
  assert (importUsers_data new_Date row acc ≠ TypeError) as Hok by congruence.
  rewrite importUsers_data_TypeError in Hok.
  destruct (row !! "id") as [v|] eqn:Hv; [|tauto].
  destruct (row !! "lastConnection") as [lc|] eqn:Hlc; [|tauto].
  unfold importUsers_data in Hrow. rewrite Hv, Hlc in Hrow.
  rewrite !omap_app; simpl. rewrite Hv, Hlc.
  destruct (parseUUID (Some v)) as [oid|] eqn:Hid; [|done].
  destruct (parseDate new_Date (Some lc)) as [d|] eqn:Hd; [|done].
  simpl in Hrow.
  split; [|split; [|split]].
  - destruct oid as [id|]; injection Hrow as <-; [by rewrite Hrec at 1|].
    by rewrite app_nil_r.
  - apply Forall_app. split; [done|]. apply Forall_singleton.
    rewrite Hv, Hlc. by split.
  - destruct oid as [id|]; injection Hrow as <-.
    + by rewrite fmap_app, Hids.
    + by rewrite app_nil_r.
  - destruct oid as [id|]; injection Hrow as <-; [|done].
    apply Forall_app. split; [done|]. apply Forall_singleton; simpl.
    apply parseUUID_Some in Hid as [-> Hlen].
    split; [done|]. split; [apply trim_trimmed|].
    split; [apply parseString_trimmed|].
    split; [apply parseString_trimmed|apply parseIntValue_not_NaN].
Qed.

Lemma importUsers_collects_valid_ids_witness :
  [sample_user] =
    omap (λ row : csv_row,
            match parseUUID (row !! "id"),
                  parseDate sample_new_Date (row !! "lastConnection") with
            | Value (Some id), Value lastConnection =>
                Some {| User.id := id;
                        User.username := parseString (row !! "username");
                        User.description := parseString (row !! "description");
                        User.experience := parseIntValue (row !! "experience");
                        User.lastConnection := lastConnection |}
            | _, _ => None
            end) [short_id_row; sample_user_row; short_id_row] ∧
  Forall (λ row : csv_row,
            is_Some (row !! "id") ∧ is_Some (row !! "lastConnection"))
         [short_id_row; sample_user_row; short_id_row] ∧
  User.id <$> [sample_user] =
    omap (λ row : csv_row,
            match parseUUID (row !! "id") with
            | Value (Some id) => Some id
            | _ => None
            end) [short_id_row; sample_user_row; short_id_row] ∧
  Forall (λ u, length (User.id u) = 36%nat ∧
               trimmed (User.id u) ∧
               trimmed (User.username u) ∧
               trimmed (User.description u) ∧
               User.experience u ≠ NaN) [sample_user].
Proof.
  apply (importUsers_collects_valid_ids sample_new_Date
           [short_id_row; sample_user_row; short_id_row] [sample_user]).
  vm_compute. reflexivity.
Defined.

(** X15 — a run of the [importUsers] handler throws exactly when some row
    lacks the id or the lastConnection cell; a missing username,
    description or experience does not make it throw. *)
Theorem importUsers_throws_iff_cell_missing {Date : Type}
    (new_Date : jsstring → jsstring → jsstring → option Date)
    (rows : list csv_row) :
  on_rows (importUsers_data new_Date) rows = TypeError ↔
  Exists (λ row : csv_row,
            row !! "id" = None ∨ row !! "lastConnection" = None) rows.
Proof.
  apply on_rows_TypeError. intros row acc. apply importUsers_data_TypeError.
Qed.

(** X16 — the handler of [importItems] never throws and skips no row: a
    run yields one item per row, in file order, holding the name and the
    type cell as [parseString] gives them (the empty string for a
    missing cell). *)
Theorem importItems_keeps_every_row (rows : list csv_row) :
  on_rows importItems_data rows =
    Value ((λ row : csv_row,
              {| Item.name := parseString (row !! "name");
                 Item.type := parseString (row !! "type") |}) <$> rows).
Proof.
  induction rows as [|row rows IH] using rev_ind; [done|].
  rewrite on_rows_snoc, IH, fmap_app. reflexivity.
Qed.

(** X17 — the handler of [importAchievements] never throws; the
    achievements it collects are at most one per row, each with an
    experience that is a number, not [NaN], and a name and a description
    without white space at their ends. *)
Theorem importAchievements_collects_checked (rows : list csv_row) :
  ∃ achievements : list Achievement.t,
    on_rows importAchievements_data rows = Value achievements ∧
    (length achievements ≤ length rows)%nat ∧
    Forall (λ a, Achievement.experience_otorgued a ≠ NaN ∧
                 trimmed (Achievement.name a) ∧
                 trimmed (Achievement.description a)) achievements.
Proof.
  induction rows as [|row rows (acc & Hrun & Hlen & Hall)] using rev_ind.
  - exists []. by repeat split.
  - rewrite on_rows_snoc, Hrun; simpl. rewrite length_app; simpl.
    destruct (importAchievements_data_cases row acc)
      as [->|(z & n & d & _ & _ & _ & _ & _ & ->)].
    + exists acc. split; [done|]. split; [lia|done].
    + eexists. split; [reflexivity|]. rewrite length_app; simpl.
      split; [lia|]. apply Forall_app. split; [done|].
      apply Forall_singleton; simpl.
      split; [done|]. split; apply trim_trimmed.
Qed.

(** X18 — the name is tested before it is trimmed: a row whose name cell
    holds white space only, with a description and an experience that
    parses, is collected with the empty name. *)
Theorem importAchievements_blank_name_kept
    (row : csv_row) (achievements : list Achievement.t)
    (n d : jsstring) (z : Z) :
  row !! "name" = Some n →
  n ≠ [] →
  Forall (λ c, is_white_space c = true) n →
  row !! "description" = Some d →
  d ≠ [] →
  parseInt10 (row !! "experience_otorgued") = Num z →
  importAchievements_data row achievements =
    Value (achievements ++ [ {| Achievement.name := [];
                                Achievement.description := trim d;
                                Achievement.experience_otorgued := Num z |} ])%list.
Proof.
  intros Hn Hne Hws Hd Hde Hz. unfold importAchievements_data.
  rewrite Hz, Hn, Hd. destruct n as [|c n]; [done|]. destruct d as [|e d]; [done|].
  simpl. do 4 f_equal. unfold trim.
  rewrite <- (app_nil_r (c :: n)), trimStart_app; done.
Qed.

Lemma importAchievements_blank_name_kept_witness :
  importAchievements_data blank_name_row [] =
    Value ([] ++ [ {| Achievement.name := [];
                      Achievement.description := trim (units "first win");
                      Achievement.experience_otorgued := Num 50 |} ])%list.
Proof.
  apply (importAchievements_blank_name_kept blank_name_row []
           (units " ") (units "first win") 50).
  - reflexivity.
  - discriminate.
  - repeat constructor.
  - reflexivity.
  - discriminate.
  - reflexivity.
Defined.

(** X19 — the handler of [importLevels] collects every row it does not
    throw on, one level per row in file order, with both numbers as
    [parseInt] reads the trimmed cells: a number that does not parse is
    kept as [NaN], as for a level_number cell of white space only. *)
Theorem importLevels_keeps_every_row (rows : list csv_row) (levels : list Level.t) :
  on_rows importLevels_data rows = Value levels →
  Forall2 (λ (row : csv_row) (lv : Level.t),
             ∃ ln er,
               row !! "level_number" = Some ln ∧
               row !! "experience_required" = Some er ∧
               lv = {| Level.level_number := parseInt10 (Some (trim ln));
                       Level.experience_required := parseInt10 (Some (trim er)) |} ∧
               (Forall (λ c, is_white_space c = true) ln →
                Level.level_number lv = NaN))
          rows levels.
Proof.
  revert rows levels. apply on_rows_invariant; [constructor|].
  intros rows acc row acc' Hall Hrow.
  unfold importLevels_data in Hrow.
  destruct (row !! "level_number") as [ln|] eqn:Hln; [|done].
  destruct (row !! "experience_required") as [er|] eqn:Her; [|done].
  simpl in Hrow. injection Hrow as <-.
  apply Forall2_app; [done|]. constructor; [|constructor].
  exists ln, er. do 3 (split; [done|]). intros Hws. simpl.
  unfold trim. rewrite <- (app_nil_r ln), trimStart_app by done. reflexivity.
Qed.

Lemma importLevels_keeps_every_row_witness :
  Forall2 (λ (row : csv_row) (lv : Level.t),
             ∃ ln er,
               row !! "level_number" = Some ln ∧
               row !! "experience_required" = Some er ∧
               lv = {| Level.level_number := parseInt10 (Some (trim ln));
                       Level.experience_required := parseInt10 (Some (trim er)) |} ∧
               (Forall (λ c, is_white_space c = true) ln →
                Level.level_number lv = NaN))
          [unparsable_level_row]
          [ {| Level.level_number := NaN; Level.experience_required := Num 100 |} ].
Proof.
  apply (importLevels_keeps_every_row [unparsable_level_row]).
  vm_compute. reflexivity.
Defined.

(** X20 — the handler of [importUserAch] collects a row exactly when
    [parseUUID] accepts its user id and its achievement id parses, the
    id 0 included: the test
    [!isNaN(idAchievement && typeof achieved === 'boolean')] lets through
    what [!isNaN(idAchievement)] lets through.  The value of [achieved]
    has no part in it. *)
Theorem importUserAch_keeps_iff_ids_parse
    (toLowerCase : jsstring → jsstring) (row : csv_row)
    (acc acc' : list User_achievement.t) :
  importUserAch_data toLowerCase row acc = Value acc' →
  ∃ oid,
    parseUUID (row !! "id_user") = Value oid ∧
    match oid, parseInt10 (row !! "id_achievement") with
    | Some id, Num z =>
        acc' =
          (acc ++ [ {| User_achievement.id_user := id;
                       User_achievement.id_achievement := Num z;
                       User_achievement.achieved :=
                         bool_decide (toLowerCase (ToString (row !! "achieved")) =
                                      units "true") |} ])%list
    | _, _ => acc' = acc
    end.
Proof.
  unfold importUserAch_data.
  destruct (parseUUID (row !! "id_user")) as [oid|]; [|done]. simpl.
  intros Hrow. exists oid. split; [done|].
  destruct oid as [id|]; [|by injection Hrow].
  destruct (parseInt10 (row !! "id_achievement")) as [|z].
  - by injection Hrow.
  - unfold js_and, truthy in Hrow. case_bool_decide; by injection Hrow.
Qed.

Lemma importUserAch_keeps_iff_ids_parse_witness :
  ∃ oid,
    parseUUID (zero_achievement_row !! "id_user") = Value oid ∧
    match oid, parseInt10 (zero_achievement_row !! "id_achievement") with
    | Some id, Num z =>
        [ {| User_achievement.id_user := sample_id;
             User_achievement.id_achievement := Num 0;
             User_achievement.achieved := true |} ] =
          ([] ++ [ {| User_achievement.id_user := id;
                      User_achievement.id_achievement := Num z;
                      User_achievement.achieved :=
                        bool_decide (sample_toLowerCase
                                       (ToString (zero_achievement_row !! "achieved")) =
                                     units "true") |} ])%list
    | _, _ =>
        [ {| User_achievement.id_user := sample_id;
             User_achievement.id_achievement := Num 0;
             User_achievement.achieved := true |} ] = []
    end.
Proof.
  apply (importUserAch_keeps_iff_ids_parse sample_toLowerCase zero_achievement_row []).
  vm_compute. reflexivity.
Defined.
